(** * The fleet gateway of the agent: check-in cycle, worker loop, lifecycle

    A shallow embedding of
    [x-pack/agent/pkg/agent/application/fleet_gateway.go].

    The gateway is orchestration code: every interesting thing it does is a
    call on one of its collaborators (reporter, check-in command, dispatcher,
    scheduler, logger) or an operation on its [done] channel.  The embedding
    therefore runs the gateway in a small state-and-panic monad over a
    [World] that holds

    - [env]:   the state behind the collaborators (event queue, network,
               dispatcher, ...), opaque to the gateway;
    - [chans]: the channels allocated with [make], each open or closed;
    - [trace]: the calls made so far, oldest first.

    Go interface values are records of closures over [env]; a nilable
    pointer that this file dereferences itself is an [option].

    What the model leaves out: the collaborators are present (no nil
    interface value is called) and their calls return; the logger's lines are
    kept in the trace and have no other effect; goroutines are not
    interleaved - the worker started by [Start] is run on its own, against
    the list of inputs that its successive [select]s meet. *)

From Stdlib Require Import ZArith String.
From stdpp Require Import base tactics option list gmap strings.

(** ** Go values *)

(** [time.Duration] is an [int64] count of nanoseconds. *)
Module time.

Definition Duration : Type := Z.

End time.

(** A channel value is the address of its state in [chans]; an address that
    is not allocated plays the role of the nil channel. *)
Definition chan : Type := nat.

Inductive chanState : Type :=
| Open
| Closed.

#[global] Instance chanState_eq_dec : EqDecision chanState.
Proof. solve_decision. Defined.

(** How a Go call ends: it returns a value or the goroutine panics. *)
Inductive Outcome (A : Type) : Type :=
| Ok (a : A)
| Panic (msg : string).

Arguments Ok {A} a.
Arguments Panic {A} msg.

(** ** Package [fleetapi]: the two payloads, with the fields the gateway uses *)

Module fleetapi.

Record CheckinRequest (Event : Type) : Type :=
  { Events : list Event }.

Record CheckinResponse (Action : Type) : Type :=
  { Actions : list Action }.

Arguments Events {Event} _.
Arguments Actions {Action} _.

End fleetapi.

(** ** Package [scheduler]: the [Scheduler] interface

    [WaitTick] hands back the channel the worker selects on; what the call
    does to the scheduler's own state is its effect on [Env].  Whether that
    channel has a tick ready is an input of the worker's [select]. *)

Module scheduler.

Record Scheduler (Env : Type) : Type :=
  { WaitTick : Env → Env;
    Stop : Env → Env }.

Arguments WaitTick {Env} _ _.
Arguments Stop {Env} _ _.

End scheduler.

Section Gateway.

(** Opaque data of the other packages. *)
Context {Event Action error Env : Type}.
Context {Logger agentInfo clienter CheckinCmd : Type}.

(** The nil interface value, the zero value of a fresh [[]action] slot. *)
Variable nilAction : Action.

(** [fleetapi.NewCheckinCmd] and the command's [Execute]: one round-trip,
    returning Go's pair [(resp, err)]. *)
Variable NewCheckinCmd : agentInfo → clienter → CheckinCmd.
Variable Execute :
  CheckinCmd → fleetapi.CheckinRequest Event → Env →
  (option (fleetapi.CheckinResponse Action) * option error) * Env.

(** [scheduler.NewPeriodicJitter(d, variance)]. *)
Variable NewPeriodicJitter :
  time.Duration → time.Duration → scheduler.Scheduler Env.

(** ** The interfaces declared in the file *)

(** [Dispatch(...action) error] *)
Record dispatcher : Type :=
  { Dispatch : list Action → Env → option error * Env }.

(** [Events() ([]fleetapi.SerializableEvent, func())]: the snapshot and the
    acknowledgment closure. *)
Record fleetReporter : Type :=
  { Events : Env → (list Event * (Env → Env)) * Env }.

(** ** The gateway

    The fields of the struct, with a prefix: [dispatcher], [agentInfo] and
    [scheduler] already name a type or a package. *)

Record fleetGateway : Type :=
  { gw_log : Logger;
    gw_dispatcher : dispatcher;
    gw_client : clienter;
    gw_scheduler : scheduler.Scheduler Env;
    gw_agentInfo : agentInfo;
    gw_reporter : fleetReporter;
    gw_done : chan }.

Record fleetGatewaySettings : Type :=
  { Duration : time.Duration;
    Jitter : time.Duration }.

(** ** Calls and worlds *)

Inductive Call : Type :=
| CallWaitTick
| CallDebug (msg : string)
| CallError (err : error)
| CallEvents (ee : list Event)
| CallExecute (cmd : CheckinCmd) (req : fleetapi.CheckinRequest Event)
    (resp : option (fleetapi.CheckinResponse Action)) (err : option error)
| CallAck (snapshot : nat)
| CallDispatch (actions : list Action) (err : option error)
| CallSchedulerStop
| GoWorker.

Record World : Type :=
  { env : Env;
    chans : gmap chan chanState;
    trace : list Call }.

Definition set_env (e : Env) (w : World) : World :=
  {| env := e; chans := chans w; trace := trace w |}.

Definition set_chans (cs : gmap chan chanState) (w : World) : World :=
  {| env := env w; chans := cs; trace := trace w |}.

Definition record (c : Call) (w : World) : World :=
  {| env := env w; chans := chans w; trace := trace w ++ [c] |}.

(** ** The monad *)

Definition M (A : Type) : Type := World → Outcome A * World.

Definition ret {A : Type} (a : A) : M A := λ w, (Ok a, w).

Definition bind {A B : Type} (m : M A) (k : A → M B) : M B :=
  λ w, match m w with
       | (Ok a, w') => k a w'
       | (Panic msg, w') => (Panic msg, w')
       end.

Definition panic {A : Type} (msg : string) : M A := λ w, (Panic msg, w).

#[local] Instance M_ret : MRet M := @ret.
#[local] Instance M_bind : MBind M := λ A B k m, bind m k.

(** Dereference of a nilable pointer. *)
Definition deref {A : Type} (p : option A) : M A :=
  match p with
  | Some a => mret a
  | None => panic "invalid memory address or nil pointer dereference"
  end.

(** ** Channels *)

(** [make(chan struct{})] *)
Definition make_chan : M chan :=
  λ w, let c := fresh (dom (chans w)) in
       (Ok c, set_chans (<[c := Open]> (chans w)) w).

(** [close(c)] *)
Definition close (c : chan) : M unit :=
  λ w, match chans w !! c with
       | Some Open => (Ok (), set_chans (<[c := Closed]> (chans w)) w)
       | Some Closed => (Panic "close of closed channel", w)
       | None => (Panic "close of nil channel", w)
       end.

(** Nothing is ever sent on [done], so a receive from it can proceed exactly
    when it is closed. *)
Definition recv_ready (c : chan) : M bool :=
  λ w, (Ok (bool_decide (chans w !! c = Some Closed)), w).

(** ** Calls on the collaborators, each recorded in the trace *)

Definition log_Debug (l : Logger) (msg : string) : M unit :=
  λ w, (Ok (), record (CallDebug msg) w).

Definition log_Error (l : Logger) (err : error) : M unit :=
  λ w, (Ok (), record (CallError err) w).

(** The closure returned by [Events()], tagged with the position of that
    [Events()] call in the trace so that calls of it can be told apart. *)
Definition ack_call (snapshot : nat) (ack : Env → Env) : M unit :=
  λ w, (Ok (), record (CallAck snapshot) (set_env (ack (env w)) w)).

Definition reporter_Events (r : fleetReporter) : M (list Event * M unit) :=
  λ w, let '(ee, ack, e) := Events r (env w) in
       (Ok (ee, ack_call (length (trace w)) ack),
        record (CallEvents ee) (set_env e w)).

Definition cmd_Execute (cmd : CheckinCmd) (req : fleetapi.CheckinRequest Event)
  : M (option (fleetapi.CheckinResponse Action) * option error) :=
  λ w, let '(resp, err, e) := Execute cmd req (env w) in
       (Ok (resp, err), record (CallExecute cmd req resp err) (set_env e w)).

Definition dispatcher_Dispatch (d : dispatcher) (actions : list Action)
  : M (option error) :=
  λ w, let '(err, e) := Dispatch d actions (env w) in
       (Ok err, record (CallDispatch actions err) (set_env e w)).

Definition scheduler_WaitTick (s : scheduler.Scheduler Env) : M unit :=
  λ w, (Ok (), record CallWaitTick (set_env (scheduler.WaitTick s (env w)) w)).

Definition scheduler_Stop (s : scheduler.Scheduler Env) : M unit :=
  λ w, (Ok (), record CallSchedulerStop (set_env (scheduler.Stop s (env w)) w)).

(** ** Constructors *)

Definition newFleetGatewayWithScheduler
  (log : Logger) (settings : option fleetGatewaySettings)
  (agentInfo_ : agentInfo) (client : clienter) (d : dispatcher)
  (scheduler_ : scheduler.Scheduler Env) (r : fleetReporter)
  : M (option fleetGateway * option error) :=
  done ← make_chan;
  mret (Some {| gw_log := log;
                gw_dispatcher := d;
                gw_client := client;
                gw_agentInfo := agentInfo_;
                gw_scheduler := scheduler_;
                gw_done := done;
                gw_reporter := r |},
        None).

Definition newFleetGateway
  (log : Logger) (settings : option fleetGatewaySettings)
  (agentInfo_ : agentInfo) (client : clienter) (d : dispatcher)
  (r : fleetReporter)
  : M (option fleetGateway * option error) :=
  s ← deref settings;
  let scheduler_ := NewPeriodicJitter (Duration s) (Jitter s) in
  newFleetGatewayWithScheduler log settings agentInfo_ client d scheduler_ r.

(** ** [execute] *)

Definition execute (f : fleetGateway)
  : M (option (fleetapi.CheckinResponse Action) * option error) :=
  (* get events *)
  '(ee, ack) ← reporter_Events (gw_reporter f);
  (* checkin *)
  let cmd := NewCheckinCmd (gw_agentInfo f) (gw_client f) in
  let req := {| fleetapi.Events := ee |} in
  '(resp, err) ← cmd_Execute cmd req;
  match err with
  | Some e => mret (None, Some e)
  | None =>
      (* ack events so they are dropped from queue *)
      ack;;
      mret (resp, None)
  end.

(** ** [worker] *)

(** [make([]action, n)] *)
Definition make_slice (n : nat) : list Action := replicate n nilAction.

(** [s[idx] = a], which panics out of range. *)
Definition slice_set (s : list Action) (idx : nat) (a : Action)
  : M (list Action) :=
  if decide (idx < length s)
  then mret (<[idx := a]> s)
  else panic "index out of range".

(** [for idx, a := range src { actions[idx] = a }], entered at index [idx]. *)
Fixpoint range_assign (idx : nat) (src actions : list Action)
  : M (list Action) :=
  match src with
  | [] => mret actions
  | a :: src' =>
      actions' ← slice_set actions idx a;
      range_assign (S idx) src' actions'
  end.

(** What the scheduler's channel offers when the worker reaches its
    [select]: no tick, or a tick; [prefer_tick] stands for Go's random choice
    when the tick and [done] are both ready. *)
Inductive selectInput : Type :=
| NoTick
| TickReady (prefer_tick : bool).

Inductive selectCase : Type :=
| TickCase
| DoneCase.

Definition select (inp : selectInput) (done_ready : bool) : option selectCase :=
  match inp, done_ready with
  | NoTick, false => None
  | NoTick, true => Some DoneCase
  | TickReady _, false => Some TickCase
  | TickReady prefer_tick, true =>
      Some (if prefer_tick then TickCase else DoneCase)
  end.

(** The loop has returned, or it is parked in (or on its way to) [select]. *)
Inductive loopStatus : Type :=
| Returned
| Waiting.

(** The loop, run against the inputs of its successive [select]s. *)
Fixpoint worker (f : fleetGateway) (sel : list selectInput) : M loopStatus :=
  match sel with
  | [] => mret Waiting
  | inp :: rest =>
      scheduler_WaitTick (gw_scheduler f);;
      done_ready ← recv_ready (gw_done f);
      match select inp done_ready with
      | None => mret Waiting
      | Some DoneCase => mret Returned
      | Some TickCase =>
          log_Debug (gw_log f) "FleetGateway calling Checkin API";;
          '(resp, err) ← execute f;
          match err with
          | Some e =>
              log_Error (gw_log f) e;;
              worker f rest
          | None =>
              resp ← deref resp;
              actions ← range_assign 0 (fleetapi.Actions resp)
                          (make_slice (length (fleetapi.Actions resp)));
              derr ← dispatcher_Dispatch (gw_dispatcher f) actions;
              match derr with
              | Some e => log_Error (gw_log f) e
              | None => mret ()
              end;;
              log_Debug (gw_log f) "FleetGateway sleeping";;
              worker f rest
          end
      end
  end.

(** ** [Start] and [Stop] *)

(** [go f.worker()]: the statement launches the goroutine and returns. *)
Definition Start (f : fleetGateway) : M unit :=
  λ w, (Ok (), record GoWorker w).

Definition Stop (f : fleetGateway) : M unit :=
  close (gw_done f);;
  scheduler_Stop (gw_scheduler f).

(** ** Clients of the gateway

    A client holds a gateway and calls its operations one after the other;
    a run of the worker goroutine is one of them, with the inputs its
    [select]s meet. *)

Inductive gatewayOp : Type :=
| OpExecute
| OpWorker (sel : list selectInput)
| OpStart
| OpStop.

Definition run_op (f : fleetGateway) (op : gatewayOp) : M unit :=
  match op with
  | OpExecute => _ ← execute f; mret ()
  | OpWorker sel => _ ← worker f sel; mret ()
  | OpStart => Start f
  | OpStop => Stop f
  end.

Fixpoint run_ops (f : fleetGateway) (ops : list gatewayOp) : M unit :=
  match ops with
  | [] => mret ()
  | op :: ops' => run_op f op;; run_ops f ops'
  end.

Definition is_stop (op : gatewayOp) : bool :=
  match op with
  | OpStop => true
  | _ => false
  end.

(** How many times the client calls [Stop]. *)
Definition stops (ops : list gatewayOp) : nat :=
  length (filter (λ op, is_stop op = true) ops).

(** ** Reading a trace *)

(** The calls made between two worlds of one run. *)
Definition calls_since (w w' : World) : list Call :=
  drop (length (trace w)) (trace w').

(** The snapshots acknowledged, in order. *)
Definition acked (t : list Call) : list nat :=
  omap (λ c, match c with CallAck n => Some n | _ => None end) t.

(** The batches handed to [Dispatch], in order. *)
Definition dispatched (t : list Call) : list (list Action) :=
  omap (λ c, match c with CallDispatch actions _ => Some actions | _ => None end) t.

(** The snapshots taken from the reporter, in order. *)
Definition snapshots (t : list Call) : list (list Event) :=
  omap (λ c, match c with CallEvents ee => Some ee | _ => None end) t.

(** Every acknowledgment in the trace is the closure of the [Events()] call
    made two calls earlier, and between the two lies a round-trip that sent
    that snapshot and came back without error. *)
Definition ack_justified (t : list Call) : Prop :=
  ∀ i n, t !! i = Some (CallAck n) →
    i = n + 2 ∧
    ∃ ee cmd resp,
      t !! n = Some (CallEvents ee) ∧
      t !! (n + 1) =
        Some (CallExecute cmd {| fleetapi.Events := ee |} resp None).

(** The environment a list of calls leaves behind, when each call is made on
    the gateway's own collaborators and an acknowledgment runs the closure
    that the latest [Events()] returned. *)
Fixpoint replay (f : fleetGateway) (calls : list Call)
  (st : (Env → Env) * Env) : (Env → Env) * Env :=
  match calls with
  | [] => st
  | c :: calls' =>
      replay f calls'
        match c with
        | CallWaitTick => (st.1, scheduler.WaitTick (gw_scheduler f) st.2)
        | CallEvents _ =>
            let '(_, ack, e) := Events (gw_reporter f) st.2 in (ack, e)
        | CallExecute cmd req _ _ => (st.1, (Execute cmd req st.2).2)
        | CallAck _ => (st.1, st.1 st.2)
        | CallDispatch actions _ =>
            (st.1, (Dispatch (gw_dispatcher f) actions st.2).2)
        | CallSchedulerStop => (st.1, scheduler.Stop (gw_scheduler f) st.2)
        | CallDebug _ | CallError _ | GoWorker => st
        end
  end.

(** The world in which the tick case calls [execute]. *)
Definition at_checkin (f : fleetGateway) (w : World) : World :=
  record (CallDebug "FleetGateway calling Checkin API")
    (record CallWaitTick
       (set_env (scheduler.WaitTick (gw_scheduler f) (env w)) w)).

(** The calls of a turn of the loop whose check-in succeeds, entered with
    [n] calls already in the trace. *)
Definition cycle_calls (f : fleetGateway) (n : nat) (ee : list Event)
  (resp : fleetapi.CheckinResponse Action) (derr : option error) : list Call :=
  [CallWaitTick;
   CallDebug "FleetGateway calling Checkin API";
   CallEvents ee;
   CallExecute (NewCheckinCmd (gw_agentInfo f) (gw_client f))
     {| fleetapi.Events := ee |} (Some resp) None;
   CallAck (n + 2);
   CallDispatch (fleetapi.Actions resp) derr]
  ++ match derr with
     | Some e => [CallError e]
     | None => []
     end
  ++ [CallDebug "FleetGateway sleeping"].

(** The run from [w0] to [w] has made [calls], and [env w] is what they
    leave of [env w0]. *)
Definition follows_calls (f : fleetGateway) (w0 w : World) : Prop :=
  ∃ calls,
    trace w = trace w0 ++ calls ∧
    ∀ pending, (replay f calls (pending, env w0)).2 = env w.

(** A property of worlds that an action keeps. *)
Definition preserves {A : Type} (P : World → Prop) (m : M A) : Prop :=
  ∀ w, P w → P (m w).2.

(** The notes of a trace: log lines and the launch of the goroutine. *)
Definition is_note (c : Call) : bool :=
  match c with
  | CallDebug _ | CallError _ | GoWorker => true
  | _ => false
  end.

(** [P] is kept by each kind of call the worker makes. *)
Definition kept_by_calls (P : World → Prop) (f : fleetGateway) : Prop :=
  preserves P (scheduler_WaitTick (gw_scheduler f)) ∧
  (∀ c, is_note c = true → ∀ w, P w → P (record c w)) ∧
  preserves P (execute f) ∧
  (∀ actions, preserves P (dispatcher_Dispatch (gw_dispatcher f) actions)).

(** The round-trips made, in order: the command and the request of each. *)
Definition roundtrips (t : list Call)
  : list (CheckinCmd * fleetapi.CheckinRequest Event) :=
  omap (λ c, match c with
             | CallExecute cmd req _ _ => Some (cmd, req)
             | _ => None
             end) t.

(** The requests of the round-trips that came back without an error. *)
Definition confirmed (t : list Call) : list (fleetapi.CheckinRequest Event) :=
  omap (λ c, match c with
             | CallExecute _ req _ None => Some req
             | _ => None
             end) t.

(** The action lists of the responses that came back without an error. *)
Definition answered (t : list Call) : list (list Action) :=
  omap (λ c, match c with
             | CallExecute _ _ (Some resp) None => Some (fleetapi.Actions resp)
             | _ => None
             end) t.

(** The errors that the round-trips and [Dispatch] returned, in order. *)
Definition returned_errors (t : list Call) : list error :=
  omap (λ c, match c with
             | CallExecute _ _ _ (Some e) | CallDispatch _ (Some e) => Some e
             | _ => None
             end) t.

(** The errors handed to the logger, in order. *)
Definition logged_errors (t : list Call) : list error :=
  omap (λ c, match c with CallError e => Some e | _ => None end) t.

(** One iteration of the loop of [worker], as a step from world to world:
    the [select] returns or parks; the check-in fails; the check-in comes
    back with neither response nor error; the check-in succeeds and its
    actions are dispatched. *)
Inductive turn (f : fleetGateway) : World → World → Prop :=
| turn_idle w :
    turn f w
      (record CallWaitTick
         (set_env (scheduler.WaitTick (gw_scheduler f) (env w)) w))
| turn_failed w ee ack e1 resp e e2 :
    Events (gw_reporter f) (scheduler.WaitTick (gw_scheduler f) (env w))
    = (ee, ack, e1) →
    Execute (NewCheckinCmd (gw_agentInfo f) (gw_client f))
      {| fleetapi.Events := ee |} e1
    = (resp, Some e, e2) →
    turn f w
      {| env := e2; chans := chans w;
         trace := trace w ++
           [CallWaitTick;
            CallDebug "FleetGateway calling Checkin API";
            CallEvents ee;
            CallExecute (NewCheckinCmd (gw_agentInfo f) (gw_client f))
              {| fleetapi.Events := ee |} resp (Some e);
            CallError e] |}
| turn_nil w ee ack e1 e2 :
    Events (gw_reporter f) (scheduler.WaitTick (gw_scheduler f) (env w))
    = (ee, ack, e1) →
    Execute (NewCheckinCmd (gw_agentInfo f) (gw_client f))
      {| fleetapi.Events := ee |} e1
    = (None, None, e2) →
    turn f w
      {| env := ack e2; chans := chans w;
         trace := trace w ++
           [CallWaitTick;
            CallDebug "FleetGateway calling Checkin API";
            CallEvents ee;
            CallExecute (NewCheckinCmd (gw_agentInfo f) (gw_client f))
              {| fleetapi.Events := ee |} None None;
            CallAck (length (trace w) + 2)] |}
| turn_ok w ee ack e1 resp e2 derr e3 :
    Events (gw_reporter f) (scheduler.WaitTick (gw_scheduler f) (env w))
    = (ee, ack, e1) →
    Execute (NewCheckinCmd (gw_agentInfo f) (gw_client f))
      {| fleetapi.Events := ee |} e1
    = (Some resp, None, e2) →
    Dispatch (gw_dispatcher f) (fleetapi.Actions resp) (ack e2) = (derr, e3) →
    turn f w
      {| env := e3; chans := chans w;
         trace := trace w ++ cycle_calls f (length (trace w)) ee resp derr |}.

(** * Properties *)

(** ** The monad and the slice loop *)

Lemma preserves_ret {A : Type} (P : World → Prop) (a : A) :
  preserves P (mret a).
Proof. intros w Hw. exact Hw. Qed.

Lemma preserves_panic {A : Type} (P : World → Prop) (msg : string) :
  preserves P (@panic A msg).
Proof. intros w Hw. exact Hw. Qed.

Lemma preserves_bind {A B : Type} (P : World → Prop) (m : M A) (k : A → M B) :
  preserves P m → (∀ a, preserves P (k a)) → preserves P (m ≫= k).
Proof.
  intros Hm Hk w Hw. specialize (Hm w Hw).
  unfold mbind, M_bind, bind. destruct (m w) as [[a|msg] w']; simpl in *.
  - by apply Hk.
  - exact Hm.
Qed.

Lemma preserves_deref {A : Type} (P : World → Prop) (p : option A) :
  preserves P (deref p).
Proof. destruct p; [apply preserves_ret | apply preserves_panic]. Qed.

Lemma slice_set_preserves (P : World → Prop) s idx a :
  preserves P (slice_set s idx a).
Proof.
  unfold slice_set. case_decide; [apply preserves_ret | apply preserves_panic].
Qed.

Lemma range_assign_preserves (P : World → Prop) src : ∀ idx actions,
  preserves P (range_assign idx src actions).
Proof.
  induction src as [|a src IH]; intros idx actions; simpl.
  - apply preserves_ret.
  - apply preserves_bind; [apply slice_set_preserves | intros; apply IH].
Qed.

(** The loop fills the slots left to right and never leaves the slice. *)
Lemma range_assign_fills src : ∀ filled blank w,
  length blank = length src →
  range_assign (length filled) src (filled ++ blank) w
  = (Ok (filled ++ src), w).
Proof.
  induction src as [|a src IH]; intros filled blank w Hlen.
  - destruct blank; [|done]. done.
  - destruct blank as [|b blank]; [done|]. simpl in Hlen.
    simpl. unfold mbind, M_bind, bind, slice_set.
    rewrite decide_True by (rewrite length_app; simpl; lia).
    simpl.
    replace (<[length filled:=a]> (filled ++ b :: blank))
      with ((filled ++ [a]) ++ blank).
    2:{ rewrite <- (Nat.add_0_r (length filled)) at 1.
        rewrite insert_app_r. simpl. by rewrite <- app_assoc. }
    replace (S (length filled)) with (length (filled ++ [a]))
      by (rewrite length_app; simpl; lia).
    rewrite IH by lia. by rewrite <- app_assoc.
Qed.

Lemma range_assign_copies src w :
  range_assign 0 src (make_slice (length src)) w = (Ok src, w).
Proof.
  apply (range_assign_fills src [] (make_slice (length src)) w).
  unfold make_slice. apply length_replicate.
Qed.

(** ** [execute] and one turn of [worker], call by call *)

Lemma execute_unfold f w :
  execute f w =
  let '(ee, ack, e1) := Events (gw_reporter f) (env w) in
  let cmd := NewCheckinCmd (gw_agentInfo f) (gw_client f) in
  let req := {| fleetapi.Events := ee |} in
  let '(resp, err, e2) := Execute cmd req e1 in
  match err with
  | Some e =>
      (Ok (None, Some e),
       {| env := e2; chans := chans w;
          trace := trace w ++ [CallEvents ee; CallExecute cmd req resp (Some e)] |})
  | None =>
      (Ok (resp, None),
       {| env := ack e2; chans := chans w;
          trace := trace w ++ [CallEvents ee; CallExecute cmd req resp None;
                               CallAck (length (trace w))] |})
  end.
Proof.
  unfold execute, mbind, M_bind, bind, reporter_Events, cmd_Execute.
  destruct (Events (gw_reporter f) (env w)) as [[ee ack] e1]. simpl.
  destruct (Execute _ _ e1) as [[resp err] e2]. simpl.
  destruct err; simpl; unfold record, set_env; simpl;
    by rewrite <- !app_assoc.
Qed.

Lemma worker_tick f inp rest w :
  select inp (bool_decide (chans w !! gw_done f = Some Closed)) = Some TickCase →
  worker f (inp :: rest) w =
  match execute f (at_checkin f w) with
  | (Panic msg, w2) => (Panic msg, w2)
  | (Ok (_, Some e), w2) => worker f rest (record (CallError e) w2)
  | (Ok (None, None), w2) =>
      (Panic "invalid memory address or nil pointer dereference", w2)
  | (Ok (Some resp, None), w2) =>
      let '(derr, e3) :=
        Dispatch (gw_dispatcher f) (fleetapi.Actions resp) (env w2) in
      let w3 :=
        record (CallDispatch (fleetapi.Actions resp) derr) (set_env e3 w2) in
      worker f rest
        (record (CallDebug "FleetGateway sleeping")
           match derr with
           | Some e => record (CallError e) w3
           | None => w3
           end)
  end.
Proof.
  intros Hsel. simpl. unfold mbind, M_bind, bind. simpl. rewrite Hsel.
  unfold at_checkin, record, set_env. simpl.
  match goal with |- context [execute f ?w1] =>
    destruct (execute f w1) as [[[[resp|] [e|]]|msg] w2] end; simpl; try done.
  rewrite range_assign_copies.
  unfold dispatcher_Dispatch. simpl.
  destruct (Dispatch _ _ (env w2)) as [[e|] e3]; simpl; done.
Qed.

Lemma worker_done f inp rest w :
  select inp (bool_decide (chans w !! gw_done f = Some Closed)) = Some DoneCase →
  worker f (inp :: rest) w =
  (Ok Returned,
   record CallWaitTick (set_env (scheduler.WaitTick (gw_scheduler f) (env w)) w)).
Proof.
  intros Hsel. simpl. unfold mbind, M_bind, bind. simpl. by rewrite Hsel.
Qed.

Lemma worker_parked f inp rest w :
  select inp (bool_decide (chans w !! gw_done f = Some Closed)) = None →
  worker f (inp :: rest) w =
  (Ok Waiting,
   record CallWaitTick (set_env (scheduler.WaitTick (gw_scheduler f) (env w)) w)).
Proof.
  intros Hsel. simpl. unfold mbind, M_bind, bind. simpl. by rewrite Hsel.
Qed.

(** Both ways [execute] can go, from [execute_unfold]. *)
Ltac execute_cases :=
  rewrite execute_unfold;
  destruct (Events _ _) as [[ee ack] e1]; simpl;
  destruct (Execute _ _ _) as [[resp [e|]] e2]; simpl.

(** ** Properties kept along a run *)

Lemma worker_preserves P f :
  kept_by_calls P f → ∀ sel, preserves P (worker f sel).
Proof.
  intros (Hwait & Hnote & Hexec & Hdisp) sel.
  induction sel as [|inp rest IH]; simpl; [apply preserves_ret|].
  apply preserves_bind; [exact Hwait | intros _].
  apply preserves_bind; [by intros w Hw | intros ready].
  destruct (select inp ready) as [[]|]; try apply preserves_ret.
  apply preserves_bind; [intros w Hw; by apply Hnote | intros _].
  apply preserves_bind; [exact Hexec | intros [resp [e|]]].
  - apply preserves_bind; [intros w Hw; by apply Hnote | intros _; exact IH].
  - apply preserves_bind; [apply preserves_deref | intros resp'].
    apply preserves_bind; [apply range_assign_preserves | intros actions].
    apply preserves_bind; [apply Hdisp | intros derr].
    apply preserves_bind.
    + destruct derr; [intros w Hw; by apply Hnote | apply preserves_ret].
    + intros _. apply preserves_bind; [|intros _; exact IH].
      intros w Hw; by apply Hnote.
Qed.

Lemma run_op_preserves P f op :
  kept_by_calls P f →
  (is_stop op = true → preserves P (Stop f)) →
  preserves P (run_op f op).
Proof.
  intros Hkept Hstop. destruct op as [|sel| |]; simpl.
  - apply preserves_bind; [apply Hkept | intros; apply preserves_ret].
  - apply preserves_bind; [by apply worker_preserves | intros; apply preserves_ret].
  - intros w Hw. by apply Hkept.
  - by apply Hstop.
Qed.

Lemma run_ops_preserves P f ops :
  kept_by_calls P f →
  (stops ops ≠ 0 → preserves P (Stop f)) →
  preserves P (run_ops f ops).
Proof.
  intros Hkept. induction ops as [|op ops IH]; intros Hstop; simpl.
  - apply preserves_ret.
  - apply preserves_bind.
    + apply run_op_preserves; [done|]. intros Hop. apply Hstop.
      unfold stops. rewrite filter_cons_True by done. done.
    + intros _. apply IH. intros Hn. apply Hstop.
      unfold stops in *. rewrite filter_cons.
      case_decide; simpl; lia.
Qed.

(** Only [make] and [close] touch the channels. *)
Lemma chans_kept f cs : kept_by_calls (λ w, chans w = cs) f.
Proof.
  split; [|split; [|split]].
  - by intros w Hw.
  - by intros c Hc w Hw.
  - intros w Hw. execute_cases; done.
  - intros actions w Hw. unfold dispatcher_Dispatch.
    destruct (Dispatch _ _ _) as [err e]; done.
Qed.

(** Acknowledgments stay justified. *)
Lemma ack_justified_app t more :
  ack_justified t →
  (∀ i n, more !! i = Some (CallAck n) →
     length t + i = n + 2 ∧
     ∃ ee cmd resp,
       (t ++ more) !! n = Some (CallEvents ee) ∧
       (t ++ more) !! (n + 1) =
         Some (CallExecute cmd {| fleetapi.Events := ee |} resp None)) →
  ack_justified (t ++ more).
Proof.
  intros Ht Hmore i n Hi.
  destruct (decide (i < length t)) as [Hlt|Hge].
  - rewrite lookup_app_l in Hi by done.
    destruct (Ht i n Hi) as (-> & ee & cmd & resp & HE & HX).
    split; [done|]. exists ee, cmd, resp.
    rewrite !lookup_app_l by lia. done.
  - rewrite lookup_app_r in Hi by lia.
    destruct (Hmore _ _ Hi) as [Hpos Hcalls].
    split; [lia | done].
Qed.

Lemma ack_justified_snoc c t :
  (∀ n, c ≠ CallAck n) →
  ack_justified t → ack_justified (t ++ [c]).
Proof.
  intros Hc Ht. apply ack_justified_app; [done|].
  intros [|i] n Hi; simpl in Hi; [|done].
  exfalso. apply (Hc n). congruence.
Qed.

Lemma ack_justified_kept f : kept_by_calls (λ w, ack_justified (trace w)) f.
Proof.
  split; [|split; [|split]].
  - intros w Hw. simpl. by apply ack_justified_snoc.
  - intros c Hc w Hw. simpl. apply ack_justified_snoc; [|done].
    intros n ->. done.
  - intros w Hw. execute_cases.
    + apply ack_justified_app; [done|].
      intros [|[|i]] n Hi; simpl in Hi; done.
    + apply ack_justified_app; [done|].
      intros [|[|[|i]]] n Hi; simpl in Hi; try done.
      injection Hi as <-. split; [done|].
      eexists ee, _, resp. split.
      * rewrite lookup_app_r by done. by rewrite Nat.sub_diag.
      * rewrite lookup_app_r by lia.
        by replace (length (trace w) + 1 - length (trace w)) with 1 by lia.
  - intros actions w Hw. unfold dispatcher_Dispatch.
    destruct (Dispatch _ _ _) as [err e]. simpl.
    by apply ack_justified_snoc.
Qed.

Lemma ack_justified_Stop f :
  preserves (λ w, ack_justified (trace w)) (Stop f).
Proof.
  intros w Hw. unfold Stop, mbind, M_bind, bind, close.
  destruct (chans w !! gw_done f) as [[]|]; simpl; try done.
  by apply ack_justified_snoc.
Qed.

(** A justified acknowledgment has its place in the trace fixed by the
    snapshot it acknowledges, so no snapshot is acknowledged twice. *)
Lemma ack_justified_once t : ack_justified t → NoDup (acked t).
Proof.
  induction t as [|c t IH] using rev_ind; intros Ht; [constructor|].
  assert (ack_justified t) as Ht'.
  { intros i n Hi.
    assert (i < length t) by (by eapply lookup_lt_Some).
    destruct (Ht i n) as (-> & ee & cmd & resp & HE & HX).
    { by rewrite lookup_app_l. }
    split; [done|]. exists ee, cmd, resp.
    rewrite !lookup_app_l in HE, HX by lia. done. }
  unfold acked in *. rewrite omap_app.
  destruct c; simpl; rewrite ?app_nil_r; auto.
  apply NoDup_app. split; [auto|]. split; [|apply NoDup_singleton].
  intros n Hn ->%list_elem_of_singleton.
  apply list_elem_of_omap in Hn as (c & Hc & Hcn).
  destruct c; try done. injection Hcn as ->.
  apply list_elem_of_lookup in Hc as [i Hi].
  assert (i < length t) by (by eapply lookup_lt_Some).
  destruct (Ht i snapshot) as [-> _]; [by rewrite lookup_app_l|].
  destruct (Ht (length t) snapshot) as [Hpos _]; [|lia].
  rewrite lookup_app_r by done. by rewrite Nat.sub_diag.
Qed.

(** The environment follows the calls. *)
Lemma replay_app f calls more st :
  replay f (calls ++ more) st = replay f more (replay f calls st).
Proof.
  revert st. induction calls as [|c calls IH]; intros st; simpl; [done|].
  apply IH.
Qed.

Lemma follows_calls_refl f w : follows_calls f w w.
Proof. exists []. split; [by rewrite app_nil_r | done]. Qed.

Lemma follows_calls_more f w0 w w' more :
  follows_calls f w0 w →
  trace w' = trace w ++ more →
  (∀ pending, (replay f more (pending, env w)).2 = env w') →
  follows_calls f w0 w'.
Proof.
  intros (calls & Htrace & Henv) Htrace' Henv'.
  exists (calls ++ more). split.
  - by rewrite Htrace', Htrace, app_assoc.
  - intros pending. rewrite replay_app.
    specialize (Henv pending).
    destruct (replay f calls (pending, env w0)) as [pending' e]. simpl in Henv.
    subst e. apply Henv'.
Qed.

Lemma follows_calls_kept f w0 : kept_by_calls (follows_calls f w0) f.
Proof.
  split; [|split; [|split]].
  - intros w Hw. by eapply follows_calls_more with (more := [CallWaitTick]).
  - intros c Hc w Hw. eapply follows_calls_more with (more := [c]); [done..|].
    by destruct c.
  - intros w Hw. rewrite execute_unfold.
    destruct (Events (gw_reporter f) (env w)) as [[ee ack] e1] eqn:HE. simpl.
    destruct (Execute _ _ e1) as [[resp [e|]] e2] eqn:HX; simpl.
    + eapply follows_calls_more; [done | done |].
      intros pending. simpl. rewrite HE. simpl. by rewrite HX.
    + eapply follows_calls_more; [done | done |].
      intros pending. simpl. rewrite HE. simpl. by rewrite HX.
  - intros actions w Hw. unfold dispatcher_Dispatch.
    destruct (Dispatch _ _ _) as [err e] eqn:HD. simpl.
    eapply follows_calls_more with (more := [CallDispatch actions err]);
      [done | done |].
    intros pending. simpl. by rewrite HD.
Qed.

Lemma follows_calls_Stop f w0 : preserves (follows_calls f w0) (Stop f).
Proof.
  intros w Hw. unfold Stop, mbind, M_bind, bind, close.
  destruct (chans w !! gw_done f) as [[]|]; simpl; try done.
  by eapply follows_calls_more with (more := [CallSchedulerStop]).
Qed.

(** ** The constructors *)

Lemma newFleetGatewayWithScheduler_unfold log settings ai client d s r w :
  newFleetGatewayWithScheduler log settings ai client d s r w =
  (Ok (Some {| gw_log := log; gw_dispatcher := d; gw_client := client;
               gw_scheduler := s; gw_agentInfo := ai; gw_reporter := r;
               gw_done := fresh (dom (chans w)) |},
       None),
   set_chans (<[fresh (dom (chans w)) := Open]> (chans w)) w).
Proof. done. Qed.

Lemma newFleetGateway_delegates log st ai client d r :
  newFleetGateway log (Some st) ai client d r =
  newFleetGatewayWithScheduler log (Some st) ai client d
    (NewPeriodicJitter (Duration st) (Jitter st)) r.
Proof. done. Qed.

(** [make] hands out a channel that was not there before. *)
Lemma make_chan_fresh w : chans w !! fresh (dom (chans w)) = None.
Proof. apply not_elem_of_dom. apply is_fresh. Qed.

(** The scheduler of a gateway built by [newFleetGateway] is the
    periodic-jitter scheduler over the two settings, the interval first. *)
Lemma newFleetGateway_scheduler log st ai client d r w f w' :
  newFleetGateway log (Some st) ai client d r w = (Ok (Some f, None), w') →
  gw_scheduler f = NewPeriodicJitter (Duration st) (Jitter st).
Proof.
  rewrite newFleetGateway_delegates, newFleetGatewayWithScheduler_unfold.
  by intros [= <- _].
Qed.

(** ** [Start] and [Stop] *)

(** [Start] calls no collaborator: it launches the goroutine and returns. *)
Lemma Start_returns_at_once f w : Start f w = (Ok (), record GoWorker w).
Proof. done. Qed.

Lemma Stop_open f w :
  chans w !! gw_done f = Some Open →
  Stop f w =
  (Ok (),
   {| env := scheduler.Stop (gw_scheduler f) (env w);
      chans := <[gw_done f := Closed]> (chans w);
      trace := trace w ++ [CallSchedulerStop] |}).
Proof.
  intros Hopen. unfold Stop, mbind, M_bind, bind, close. by rewrite Hopen.
Qed.

Lemma Stop_closed f w :
  chans w !! gw_done f = Some Closed →
  Stop f w = (Panic "close of closed channel", w).
Proof.
  intros Hclosed. unfold Stop, mbind, M_bind, bind, close. by rewrite Hclosed.
Qed.

(** A second [Stop] finds the channel closed. *)
Lemma Stop_twice f w :
  chans w !! gw_done f = Some Open →
  (Stop f;; Stop f) w = (Panic "close of closed channel", (Stop f w).2).
Proof.
  intros Hopen. unfold mbind at 1, M_bind at 1, bind at 1.
  rewrite (Stop_open f w Hopen). apply Stop_closed. simpl.
  apply lookup_insert_eq.
Qed.

(** Once [done] is closed, a [select] that finds no tick, or that does not
    draw the tick, returns from the loop without another check-in. *)
Lemma worker_returns_after_Stop f w w' inp rest :
  Stop f w = (Ok (), w') →
  inp = NoTick ∨ inp = TickReady false →
  worker f (inp :: rest) w' =
  (Ok Returned,
   record CallWaitTick (set_env (scheduler.WaitTick (gw_scheduler f) (env w')) w')).
Proof.
  intros HStop Hinp. apply worker_done.
  assert (chans w' !! gw_done f = Some Closed) as ->.
  { revert HStop. unfold Stop, mbind, M_bind, bind, close.
    destruct (chans w !! gw_done f) as [[]|]; simpl; try done.
    intros [= <-]. simpl. apply lookup_insert_eq. }
  rewrite bool_decide_eq_true_2 by done. by destruct Hinp as [-> | ->].
Qed.

(** ** One turn of the loop with a successful check-in *)

Lemma worker_cycle f inp rest w ee ack e1 resp e2 derr e3 :
  select inp (bool_decide (chans w !! gw_done f = Some Closed)) = Some TickCase →
  Events (gw_reporter f) (scheduler.WaitTick (gw_scheduler f) (env w))
  = (ee, ack, e1) →
  Execute (NewCheckinCmd (gw_agentInfo f) (gw_client f))
    {| fleetapi.Events := ee |} e1
  = (Some resp, None, e2) →
  Dispatch (gw_dispatcher f) (fleetapi.Actions resp) (ack e2) = (derr, e3) →
  worker f (inp :: rest) w =
  worker f rest
    {| env := e3; chans := chans w;
       trace := trace w ++ cycle_calls f (length (trace w)) ee resp derr |}.
Proof.
  intros Hsel HE HX HD.
  rewrite worker_tick by done. rewrite execute_unfold. simpl.
  rewrite HE. simpl. rewrite HX. simpl. rewrite HD.
  f_equal. unfold record, set_env, cycle_calls.
  rewrite !length_app. simpl.
  replace (length (trace w) + 1 + 1) with (length (trace w) + 2) by lia.
  destruct derr; simpl; f_equal; by rewrite <- !app_assoc.
Qed.

Lemma calls_since_app w l e cs :
  calls_since w {| env := e; chans := cs; trace := trace w ++ l |} = l.
Proof. unfold calls_since. simpl. apply drop_app_length. Qed.

(** ** The check-in *)

(** C1. When the round-trip of a call of [execute] comes back without an
    error, the call makes three calls and no more: [Events()], the
    round-trip with that snapshot, and then the acknowledgment that
    [Events()] returned; it returns the response of the round-trip and a nil
    error.  And however a client drives the gateway, every acknowledgment in
    the trace stands directly behind an error-free round-trip that carried
    its own snapshot, so no snapshot is acknowledged twice. *)
Theorem execute_acks_once_after_success f w ee ack e1 resp e2 :
  Events (gw_reporter f) (env w) = (ee, ack, e1) →
  Execute (NewCheckinCmd (gw_agentInfo f) (gw_client f))
    {| fleetapi.Events := ee |} e1
  = (resp, None, e2) →
  let w' :=
    {| env := ack e2; chans := chans w;
       trace := trace w ++
         [CallEvents ee;
          CallExecute (NewCheckinCmd (gw_agentInfo f) (gw_client f))
            {| fleetapi.Events := ee |} resp None;
          CallAck (length (trace w))] |} in
  execute f w = (Ok (resp, None), w')
  ∧ acked (calls_since w w') = [length (trace w)]
  ∧ ∀ ops w0,
      ack_justified (trace w0) →
      ack_justified (trace (run_ops f ops w0).2) ∧
      NoDup (acked (trace (run_ops f ops w0).2)).
Proof.
  intros HE HX w'. split; [|split].
  - rewrite execute_unfold, HE. simpl. by rewrite HX.
  - unfold w'. by rewrite calls_since_app.
  - intros ops w0 Hw0.
    assert (ack_justified (trace (run_ops f ops w0).2)) as Hrun.
    { apply (run_ops_preserves (λ w, ack_justified (trace w))); [|intros _|done].
      - apply ack_justified_kept.
      - apply ack_justified_Stop. }
    split; [done | by apply ack_justified_once].
Qed.

(** C2. When the round-trip of a call of [execute] comes back with an error,
    the call returns that error and a nil response after two calls,
    [Events()] and the round-trip: the acknowledgment is not called, and the
    environment is the one the round-trip left.  In the worker the turn then
    logs the error and goes on with the loop, without a call of
    [Dispatch]. *)
Theorem failed_checkin_acks_and_dispatches_nothing f w ee ack e1 resp e e2 :
  Events (gw_reporter f) (env w) = (ee, ack, e1) →
  Execute (NewCheckinCmd (gw_agentInfo f) (gw_client f))
    {| fleetapi.Events := ee |} e1
  = (resp, Some e, e2) →
  let w' :=
    {| env := e2; chans := chans w;
       trace := trace w ++
         [CallEvents ee;
          CallExecute (NewCheckinCmd (gw_agentInfo f) (gw_client f))
            {| fleetapi.Events := ee |} resp (Some e)] |} in
  execute f w = (Ok (None, Some e), w')
  ∧ acked (calls_since w w') = []
  ∧ ∀ inp rest w0,
      at_checkin f w0 = w →
      select inp (bool_decide (chans w0 !! gw_done f = Some Closed))
      = Some TickCase →
      worker f (inp :: rest) w0 = worker f rest (record (CallError e) w')
      ∧ dispatched (calls_since w0 (record (CallError e) w')) = []
      ∧ acked (calls_since w0 (record (CallError e) w')) = [].
Proof.
  intros HE HX w'.
  assert (execute f w = (Ok (None, Some e), w')) as Hexec.
  { rewrite execute_unfold, HE. simpl. by rewrite HX. }
  split; [done|]. split.
  { unfold w'. by rewrite calls_since_app. }
  intros inp rest w0 <- Hsel. split.
  - rewrite worker_tick by done. by rewrite Hexec.
  - unfold w', record, at_checkin. simpl.
    rewrite <- !app_assoc. by rewrite calls_since_app.
Qed.

(** ** The worker loop *)

(** C3. In a turn of the loop whose check-in succeeds, the loop goes on to
    its next [select] after a single call of [Dispatch], and the batch of
    that call is the list of actions of the response, in the order of the
    response (the empty batch for a response without actions). *)
Theorem successful_cycle_dispatches_response_once
  f inp rest w ee ack e1 resp e2 derr e3 :
  select inp (bool_decide (chans w !! gw_done f = Some Closed)) = Some TickCase →
  Events (gw_reporter f) (scheduler.WaitTick (gw_scheduler f) (env w))
  = (ee, ack, e1) →
  Execute (NewCheckinCmd (gw_agentInfo f) (gw_client f))
    {| fleetapi.Events := ee |} e1
  = (Some resp, None, e2) →
  Dispatch (gw_dispatcher f) (fleetapi.Actions resp) (ack e2) = (derr, e3) →
  let w' :=
    {| env := e3; chans := chans w;
       trace := trace w ++ cycle_calls f (length (trace w)) ee resp derr |} in
  worker f (inp :: rest) w = worker f rest w'
  ∧ dispatched (calls_since w w') = [fleetapi.Actions resp].
Proof.
  intros Hsel HE HX HD w'. split.
  - by eapply worker_cycle.
  - unfold w'. rewrite calls_since_app. by destruct derr.
Qed.

(** C4. When [Dispatch] returns an error, the turn logs it and does nothing
    else about it: the environment the turn leaves is the one [Dispatch]
    returned, reached from the acknowledged one; no second [Events()] or
    round-trip follows; and the loop goes on with its next [select]. *)
Theorem dispatch_error_is_only_logged
  f inp rest w ee ack e1 resp e2 err e3 :
  select inp (bool_decide (chans w !! gw_done f = Some Closed)) = Some TickCase →
  Events (gw_reporter f) (scheduler.WaitTick (gw_scheduler f) (env w))
  = (ee, ack, e1) →
  Execute (NewCheckinCmd (gw_agentInfo f) (gw_client f))
    {| fleetapi.Events := ee |} e1
  = (Some resp, None, e2) →
  Dispatch (gw_dispatcher f) (fleetapi.Actions resp) (ack e2) = (Some err, e3) →
  let w' :=
    {| env := e3; chans := chans w;
       trace := trace w ++
         [CallWaitTick;
          CallDebug "FleetGateway calling Checkin API";
          CallEvents ee;
          CallExecute (NewCheckinCmd (gw_agentInfo f) (gw_client f))
            {| fleetapi.Events := ee |} (Some resp) None;
          CallAck (length (trace w) + 2);
          CallDispatch (fleetapi.Actions resp) (Some err);
          CallError err;
          CallDebug "FleetGateway sleeping"] |} in
  worker f (inp :: rest) w = worker f rest w'
  ∧ worker f [inp] w = (Ok Waiting, w')
  ∧ snapshots (calls_since w w') = [ee]
  ∧ acked (calls_since w w') = [length (trace w) + 2].
Proof.
  intros Hsel HE HX HD w'.
  split; [by eapply worker_cycle|]. split.
  - by rewrite (worker_cycle f inp [] w ee ack e1 resp e2 (Some err) e3).
  - unfold w'. by rewrite calls_since_app.
Qed.

(** ** Lifecycle *)

(** C8. On a gateway that came out of the constructor, after any operations
    of a client that has not called [Stop] before, [done] is still open and
    the call of [Stop] completes: it closes [done], calls the scheduler's
    [Stop] and returns, so [close] does not meet a closed channel. *)
Theorem Stop_once_completes log settings ai client d s r w0 f w1 ops w2 :
  newFleetGatewayWithScheduler log settings ai client d s r w0
  = (Ok (Some f, None), w1) →
  stops ops = 0 →
  run_ops f ops w1 = (Ok (), w2) →
  chans w2 !! gw_done f = Some Open
  ∧ Stop f w2
    = (Ok (),
       {| env := scheduler.Stop (gw_scheduler f) (env w2);
          chans := <[gw_done f := Closed]> (chans w2);
          trace := trace w2 ++ [CallSchedulerStop] |}).
Proof.
  rewrite newFleetGatewayWithScheduler_unfold.
  intros [= <- <-] Hstops Hrun.
  set (c := fresh (dom (chans w0))) in *.
  assert (chans w2 = <[c := Open]> (chans w0)) as Hchans.
  { change w2 with (Ok (), w2).2. rewrite <- Hrun.
    apply (run_ops_preserves (λ w, chans w = <[c := Open]> (chans w0)));
      [apply chans_kept | done | done]. }
  assert (chans w2 !! c = Some Open) as Hopen.
  { rewrite Hchans. apply lookup_insert_eq. }
  split; [done | by apply Stop_open].
Qed.

(** C9, as the code has it. [newFleetGatewayWithScheduler] returns a gateway
    and a nil error whatever its arguments, and so does [newFleetGateway]
    whenever its [settings] pointer is not nil. *)
Theorem constructors_return_a_gateway :
  (∀ log settings ai client d s r w,
     ∃ f w',
       newFleetGatewayWithScheduler log settings ai client d s r w
       = (Ok (Some f, None), w'))
  ∧ (∀ log st ai client d r w,
       ∃ f w',
         newFleetGateway log (Some st) ai client d r w
         = (Ok (Some f, None), w')).
Proof.
  split.
  - intros. rewrite newFleetGatewayWithScheduler_unfold. eauto.
  - intros. rewrite newFleetGateway_delegates,
      newFleetGatewayWithScheduler_unfold. eauto.
Qed.

(** ** The reporter's queue *)

(** C10. Whatever operations a client runs on the gateway, the environment
    they leave - the reporter's queue with it - is the one obtained by
    making the recorded calls on the collaborators, one after the other;
    the only calls among them that reach the reporter are [Events()] and,
    for an acknowledgment, the closure that the latest [Events()] of the
    same run returned. *)
Theorem gateway_changes_queue_only_through_reporter f ops w :
  ∃ calls,
    trace (run_ops f ops w).2 = trace w ++ calls ∧
    ∀ pending,
      (replay f calls (pending, env w)).2 = env (run_ops f ops w).2.
Proof.
  apply (run_ops_preserves (follows_calls f w) f ops).
  - apply follows_calls_kept.
  - intros _. apply follows_calls_Stop.
  - apply follows_calls_refl.
Qed.

(** * Further properties *)

(** ** The loop, turn by turn *)

Lemma worker_cycle_failed f inp rest w ee ack e1 resp e e2 :
  select inp (bool_decide (chans w !! gw_done f = Some Closed)) = Some TickCase →
  Events (gw_reporter f) (scheduler.WaitTick (gw_scheduler f) (env w))
  = (ee, ack, e1) →
  Execute (NewCheckinCmd (gw_agentInfo f) (gw_client f))
    {| fleetapi.Events := ee |} e1
  = (resp, Some e, e2) →
  worker f (inp :: rest) w =
  worker f rest
    {| env := e2; chans := chans w;
       trace := trace w ++
         [CallWaitTick;
          CallDebug "FleetGateway calling Checkin API";
          CallEvents ee;
          CallExecute (NewCheckinCmd (gw_agentInfo f) (gw_client f))
            {| fleetapi.Events := ee |} resp (Some e);
          CallError e] |}.
Proof.
  intros Hsel HE HX.
  rewrite worker_tick by done. rewrite execute_unfold. simpl.
  rewrite HE. simpl. rewrite HX. simpl.
  f_equal. unfold record. simpl. f_equal. by rewrite <- !app_assoc.
Qed.

Lemma worker_cycle_nil f inp rest w ee ack e1 e2 :
  select inp (bool_decide (chans w !! gw_done f = Some Closed)) = Some TickCase →
  Events (gw_reporter f) (scheduler.WaitTick (gw_scheduler f) (env w))
  = (ee, ack, e1) →
  Execute (NewCheckinCmd (gw_agentInfo f) (gw_client f))
    {| fleetapi.Events := ee |} e1
  = (None, None, e2) →
  worker f (inp :: rest) w =
  (Panic "invalid memory address or nil pointer dereference",
   {| env := ack e2; chans := chans w;
      trace := trace w ++
        [CallWaitTick;
         CallDebug "FleetGateway calling Checkin API";
         CallEvents ee;
         CallExecute (NewCheckinCmd (gw_agentInfo f) (gw_client f))
           {| fleetapi.Events := ee |} None None;
         CallAck (length (trace w) + 2)] |}).
Proof.
  intros Hsel HE HX.
  rewrite worker_tick by done. rewrite execute_unfold. simpl.
  rewrite HE. simpl. rewrite HX. simpl.
  f_equal. f_equal. rewrite !length_app. simpl.
  replace (length (trace w) + 1 + 1) with (length (trace w) + 2) by lia.
  by rewrite <- !app_assoc.
Qed.

(** Every run of the loop is a sequence of turns. *)
Lemma worker_turns f sel : ∀ w, rtc (turn f) w (worker f sel w).2.
Proof.
  induction sel as [|inp rest IH]; intros w; [apply rtc_refl|].
  destruct (select inp (bool_decide (chans w !! gw_done f = Some Closed)))
    as [[]|] eqn:Hsel.
  - destruct (Events (gw_reporter f)
                (scheduler.WaitTick (gw_scheduler f) (env w)))
      as [[ee ack] e1] eqn:HE.
    destruct (Execute (NewCheckinCmd (gw_agentInfo f) (gw_client f))
                {| fleetapi.Events := ee |} e1)
      as [[resp [e|]] e2] eqn:HX.
    + rewrite (worker_cycle_failed f inp rest w ee ack e1 resp e e2) by done.
      eapply rtc_l; [by eapply turn_failed | apply IH].
    + destruct resp as [resp|].
      * destruct (Dispatch (gw_dispatcher f) (fleetapi.Actions resp) (ack e2))
          as [derr e3] eqn:HD.
        rewrite (worker_cycle f inp rest w ee ack e1 resp e2 derr e3) by done.
        eapply rtc_l; [by eapply turn_ok | apply IH].
      * rewrite (worker_cycle_nil f inp rest w ee ack e1 e2) by done.
        apply rtc_once. by eapply turn_nil.
  - rewrite worker_done by done. apply rtc_once, turn_idle.
  - rewrite worker_parked by done. apply rtc_once, turn_idle.
Qed.

Lemma worker_keeps (P : World → Prop) f :
  (∀ w w', turn f w w' → P w → P w') → ∀ sel, preserves P (worker f sel).
Proof.
  intros Hturn sel w Hw.
  induction (worker_turns f sel w) as [|w1 w2 w3 H12 _ IH]; eauto.
Qed.

(** What a turn adds to the trace. *)
Lemma turn_calls f w w' :
  turn f w w' →
  ∃ new,
    trace w' = trace w ++ new ∧
    dispatched new = answered new ∧
    logged_errors new = returned_errors new.
Proof.
  destruct 1 as [w|w ee ack e1 resp e e2 HE HX|w ee ack e1 e2 HE HX
                 |w ee ack e1 resp e2 derr e3 HE HX HD];
    eexists; (split; [reflexivity|]); [done| |done|].
  - split; [by destruct resp | done].
  - by destruct derr.
Qed.

(** Two readings of the calls of a run that agree on every turn agree on
    the run. *)
Lemma worker_readings_agree {A : Type} (F G : list Call → list A) f :
  (∀ a b, F (a ++ b) = F a ++ F b) →
  (∀ a b, G (a ++ b) = G a ++ G b) →
  F [] = G [] →
  (∀ w w' new, turn f w w' → trace w' = trace w ++ new → F new = G new) →
  ∀ sel w,
    F (calls_since w (worker f sel w).2) = G (calls_since w (worker f sel w).2).
Proof.
  intros HF HG Hnil Hturn sel w.
  assert (∃ calls, trace (worker f sel w).2 = trace w ++ calls ∧
                   F calls = G calls) as (calls & Htrace & Hcalls).
  { apply (worker_keeps
             (λ w', ∃ calls, trace w' = trace w ++ calls ∧ F calls = G calls)).
    - intros w1 w2 H12 (calls & Htrace & Hcalls).
      destruct (turn_calls f w1 w2 H12) as (new & Hnew & _).
      exists (calls ++ new). split.
      + by rewrite Hnew, Htrace, app_assoc.
      + rewrite HF, HG, Hcalls. f_equal. by eapply Hturn.
    - exists []. by rewrite app_nil_r. }
  unfold calls_since. by rewrite Htrace, drop_app_length.
Qed.

(** ** Whole runs of the worker *)

(** X1. The slice loop of [worker] overwrites every slot of its destination
    with the action at the same index and never indexes out of range: for a
    destination as long as the source, whatever it held, the result is the
    source list. *)
Theorem actions_copy_overwrites_every_slot src dst w :
  length dst = length src →
  range_assign 0 src dst w = (Ok src, w).
Proof. intros Hlen. by apply (range_assign_fills src [] dst w). Qed.

(** X2. Over a whole run of the worker, the batches handed to [Dispatch]
    are the action lists of the error-free responses, each once and in the
    order the responses arrived: no response is dispatched twice or
    skipped, and nothing else is dispatched. *)
Theorem worker_dispatches_each_answer_once f sel w :
  dispatched (calls_since w (worker f sel w).2)
  = answered (calls_since w (worker f sel w).2).
Proof.
  apply (worker_readings_agree dispatched answered f);
    [apply omap_app | apply omap_app | done |].
  intros w1 w2 new H12 Hnew.
  destruct (turn_calls f w1 w2 H12) as (new' & Hnew' & Hd & _).
  rewrite Hnew' in Hnew. by apply app_inv_head in Hnew as ->.
Qed.

(** X3. Over a whole run of the worker, the errors handed to the logger are
    the errors that the round-trips and [Dispatch] returned, each once and
    in order: no error is dropped and no other error is logged. *)
Theorem worker_logs_each_error_once f sel w :
  logged_errors (calls_since w (worker f sel w).2)
  = returned_errors (calls_since w (worker f sel w).2).
Proof.
  apply (worker_readings_agree logged_errors returned_errors f);
    [apply omap_app | apply omap_app | done |].
  intros w1 w2 new H12 Hnew.
  destruct (turn_calls f w1 w2 H12) as (new' & Hnew' & _ & Hl).
  rewrite Hnew' in Hnew. by apply app_inv_head in Hnew as ->.
Qed.

(** X4. A round-trip that comes back with a nil response and a nil error
    ends the worker: [execute] has acknowledged the snapshot, and then the
    read of [resp.Actions] panics, before any [Dispatch] and whatever
    inputs were still to come. *)
Theorem nil_response_ends_worker_after_ack f inp rest w ee ack e1 e2 :
  select inp (bool_decide (chans w !! gw_done f = Some Closed)) = Some TickCase →
  Events (gw_reporter f) (scheduler.WaitTick (gw_scheduler f) (env w))
  = (ee, ack, e1) →
  Execute (NewCheckinCmd (gw_agentInfo f) (gw_client f))
    {| fleetapi.Events := ee |} e1
  = (None, None, e2) →
  let w' := (worker f (inp :: rest) w).2 in
  (worker f (inp :: rest) w).1
  = Panic "invalid memory address or nil pointer dereference"
  ∧ env w' = ack e2
  ∧ acked (calls_since w w') = [length (trace w) + 2]
  ∧ dispatched (calls_since w w') = [].
Proof.
  intros Hsel HE HX w'. unfold w'.
  rewrite (worker_cycle_nil f inp rest w ee ack e1 e2) by done.
  simpl. by rewrite calls_since_app.
Qed.


(** ** Whole runs of a client *)

(** X6. In every run, each [Events()] call is followed by one round-trip,
    and the round-trips made are exactly these: each is run on a command
    built from the gateway's own agent info and client, and its request
    carries the snapshot as [Events()] returned it. *)
Theorem each_snapshot_is_sent_as_taken f ops w :
  roundtrips (calls_since w (run_ops f ops w).2)
  = (λ ee, (NewCheckinCmd (gw_agentInfo f) (gw_client f),
            {| fleetapi.Events := ee |}))
    <$> snapshots (calls_since w (run_ops f ops w).2).
Proof.
  set (sent := λ ee : list Event,
         (NewCheckinCmd (gw_agentInfo f) (gw_client f),
          {| fleetapi.Events := ee |})).
  assert (∃ calls, trace (run_ops f ops w).2 = trace w ++ calls ∧
                   roundtrips calls = sent <$> snapshots calls)
    as (calls & Htrace & Hcalls).
  { assert (∀ t1 t2 more,
              (∃ calls, t1 = trace w ++ calls ∧
                        roundtrips calls = sent <$> snapshots calls) →
              t2 = t1 ++ more →
              roundtrips more = sent <$> snapshots more →
              ∃ calls, t2 = trace w ++ calls ∧
                       roundtrips calls = sent <$> snapshots calls) as Hmore.
    { intros t1 t2 more (calls & Htrace & Hcalls) Hw2 Hm.
      exists (calls ++ more). split; [by rewrite Hw2, Htrace, app_assoc|].
      unfold roundtrips, snapshots in *.
      by rewrite !omap_app, fmap_app, Hcalls, Hm. }
    apply (run_ops_preserves
             (λ w', ∃ calls, trace w' = trace w ++ calls ∧
                             roundtrips calls = sent <$> snapshots calls)).
    - split; [|split; [|split]].
      + intros w1 H1. by eapply Hmore with (more := [CallWaitTick]).
      + intros c Hc w1 H1. eapply Hmore with (more := [c]); [done..|].
        by destruct c.
      + intros w1 H1. execute_cases; by eapply Hmore.
      + intros actions w1 H1. unfold dispatcher_Dispatch.
        destruct (Dispatch _ _ _) as [err e]. simpl.
        by eapply Hmore with (more := [CallDispatch actions err]).
    - intros _ w1 H1. unfold Stop, mbind, M_bind, bind, close.
      destruct (chans w1 !! gw_done f) as [[]|]; simpl; try done.
      by eapply Hmore with (more := [CallSchedulerStop]).
    - exists []. by rewrite app_nil_r. }
  unfold calls_since. by rewrite Htrace, drop_app_length.
Qed.

(** X11. In every run there are as many acknowledgments as round-trips
    that came back without an error: with C1, each such round-trip is
    followed by its one acknowledgment, also when its response is nil, and
    none goes unacknowledged. *)
Theorem every_confirmed_checkin_is_acked f ops w :
  length (acked (calls_since w (run_ops f ops w).2))
  = length (confirmed (calls_since w (run_ops f ops w).2)).
Proof.
  assert (∃ calls, trace (run_ops f ops w).2 = trace w ++ calls ∧
                   length (acked calls) = length (confirmed calls))
    as (calls & Htrace & Hcalls).
  { assert (∀ t1 t2 more,
              (∃ calls, t1 = trace w ++ calls ∧
                        length (acked calls) = length (confirmed calls)) →
              t2 = t1 ++ more →
              length (acked more) = length (confirmed more) →
              ∃ calls, t2 = trace w ++ calls ∧
                       length (acked calls) = length (confirmed calls))
      as Hmore.
    { intros t1 t2 more (calls & Htrace & Hcalls) Hw2 Hm.
      exists (calls ++ more). split; [by rewrite Hw2, Htrace, app_assoc|].
      unfold acked, confirmed in *.
      rewrite !omap_app, !length_app. lia. }
    apply (run_ops_preserves
             (λ w', ∃ calls, trace w' = trace w ++ calls ∧
                             length (acked calls) = length (confirmed calls))).
    - split; [|split; [|split]].
      + intros w1 H1. by eapply Hmore with (more := [CallWaitTick]).
      + intros c Hc w1 H1. eapply Hmore with (more := [c]); [done..|].
        by destruct c.
      + intros w1 H1. execute_cases; by eapply Hmore.
      + intros actions w1 H1. unfold dispatcher_Dispatch.
        destruct (Dispatch _ _ _) as [err e]. simpl.
        by eapply Hmore with (more := [CallDispatch actions err]).
    - intros _ w1 H1. unfold Stop, mbind, M_bind, bind, close.
      destruct (chans w1 !! gw_done f) as [[]|]; simpl; try done.
      by eapply Hmore with (more := [CallSchedulerStop]).
    - exists []. by rewrite app_nil_r. }
  unfold calls_since. by rewrite Htrace, drop_app_length.
Qed.

(** ** [done] along a run *)

Lemma stops_cons op ops :
  stops (op :: ops) = (if is_stop op then 1 else 0) + stops ops.
Proof.
  unfold stops. rewrite filter_cons. destruct (is_stop op); by case_decide.
Qed.

(** In a run that completes, [Stop] is called at most once, and [done] is
    closed exactly if it was. *)
Lemma run_ops_done f ops : ∀ w w2,
  run_ops f ops w = (Ok (), w2) →
  (stops ops = 0 ∧ chans w2 = chans w)
  ∨ (stops ops = 1 ∧ chans w !! gw_done f = Some Open ∧
     chans w2 = <[gw_done f := Closed]> (chans w)).
Proof.
  induction ops as [|op ops IH]; intros w w2 Hrun.
  { injection Hrun as <-. by left. }
  simpl in Hrun. unfold mbind, M_bind, bind in Hrun.
  destruct (run_op f op w) as [[[]|msg] w1] eqn:Hop; [|done].
  rewrite stops_cons.
  destruct (is_stop op) eqn:Hstop.
  - destruct op; try done. simpl in Hop.
    destruct (chans w !! gw_done f) as [[]|] eqn:Hdone.
    + rewrite Stop_open in Hop by done. injection Hop as <-.
      destruct (IH _ _ Hrun) as [[-> ->]|(_ & Hopen & _)].
      * by right.
      * simpl in Hopen. by rewrite lookup_insert_eq in Hopen.
    + by rewrite Stop_closed in Hop.
    + unfold Stop, mbind, M_bind, bind, close in Hop. by rewrite Hdone in Hop.
  - assert (chans w1 = chans w) as Hchans.
    { change w1 with (Ok (), w1).2. rewrite <- Hop.
      apply (run_op_preserves (λ w', chans w' = chans w));
        [apply chans_kept | by rewrite Hstop | done]. }
    destruct (IH _ _ Hrun) as [[-> ->]|(-> & Hopen & ->)].
    + by left.
    + right. by rewrite <- Hchans.
Qed.

(** X7. On a gateway that came out of the constructor, once a client has
    called [Stop], a further call panics in [close] on the closed channel,
    whatever was called in between; the panic comes before
    [f.scheduler.Stop()], so the scheduler is not stopped a second time. *)
Theorem Stop_after_Stop_panics log settings ai client d s r w0 f w1 ops w2 :
  newFleetGatewayWithScheduler log settings ai client d s r w0
  = (Ok (Some f, None), w1) →
  run_ops f ops w1 = (Ok (), w2) →
  stops ops ≠ 0 →
  stops ops = 1
  ∧ Stop f w2 = (Panic "close of closed channel", w2).
Proof.
  rewrite newFleetGatewayWithScheduler_unfold.
  intros [= <- <-] Hrun Hstops.
  destruct (run_ops_done _ _ _ _ Hrun) as [[? _]|(H1 & _ & Hchans)]; [done|].
  split; [done|]. apply Stop_closed. rewrite Hchans. apply lookup_insert_eq.
Qed.

(** X8. After such a [Stop], the first [select] of the loop that finds no
    tick, or does not draw the one it finds, returns from [worker]: the only
    call of that iteration is [WaitTick()], evaluated on entering the
    [select], and the inputs still to come are not looked at. *)
Theorem worker_returns_once_stopped
  log settings ai client d s r w0 f w1 ops w2 inp rest :
  newFleetGatewayWithScheduler log settings ai client d s r w0
  = (Ok (Some f, None), w1) →
  run_ops f ops w1 = (Ok (), w2) →
  stops ops ≠ 0 →
  inp = NoTick ∨ inp = TickReady false →
  worker f (inp :: rest) w2
  = (Ok Returned,
     {| env := scheduler.WaitTick (gw_scheduler f) (env w2);
        chans := chans w2;
        trace := trace w2 ++ [CallWaitTick] |}).
Proof.
  rewrite newFleetGatewayWithScheduler_unfold.
  intros [= <- <-] Hrun Hstops Hinp.
  destruct (run_ops_done _ _ _ _ Hrun) as [[? _]|(_ & _ & Hchans)]; [done|].
  apply worker_done. rewrite Hchans. simpl. rewrite lookup_insert_eq.
  rewrite bool_decide_eq_true_2 by done. by destruct Hinp as [-> | ->].
Qed.

Lemma run_only_closes_own_done_aux f ops w c :
  chans (run_ops f ops w).2 !! c = chans w !! c
  ∨ (c = gw_done f ∧ chans w !! c = Some Open ∧
     chans (run_ops f ops w).2 !! c = Some Closed).
Proof.
  apply (run_ops_preserves
           (λ w', chans w' !! c = chans w !! c
                  ∨ (c = gw_done f ∧ chans w !! c = Some Open ∧
                     chans w' !! c = Some Closed))).
  - split; [|split; [|split]].
    + by intros w1 H1.
    + by intros n Hn w1 H1.
    + intros w1 H1. by execute_cases.
    + intros actions w1 H1. unfold dispatcher_Dispatch.
      by destruct (Dispatch _ _ _) as [err e].
  - intros _ w1 H1. unfold Stop, mbind, M_bind, bind, close.
    destruct (chans w1 !! gw_done f) as [[]|] eqn:Hdone; simpl; try done.
    destruct (decide (c = gw_done f)) as [->|Hne].
    + right. rewrite lookup_insert_eq.
      destruct H1 as [H1|(_ & _ & H1)]; [|congruence].
      split; [done|]. split; [congruence | done].
    + rewrite lookup_insert_ne by done. destruct H1 as [H1|[? _]]; [by left|done].
  - by left.
Qed.


(** X10. Two gateways never share their [done]: a gateway constructed after
    another, whatever the client has done with the first one in between,
    gets a different channel, and nothing the client then does with the
    first, [Stop] included, closes the [done] of the second. *)
Theorem gateways_do_not_share_done
  log1 settings1 ai1 client1 d1 s1 r1 w0 f1 w1 ops
  log2 settings2 ai2 client2 d2 s2 r2 f2 w2 ops' :
  newFleetGatewayWithScheduler log1 settings1 ai1 client1 d1 s1 r1 w0
  = (Ok (Some f1, None), w1) →
  newFleetGatewayWithScheduler log2 settings2 ai2 client2 d2 s2 r2
    (run_ops f1 ops w1).2
  = (Ok (Some f2, None), w2) →
  gw_done f1 ≠ gw_done f2
  ∧ chans (run_ops f1 ops' w2).2 !! gw_done f2 = Some Open.
Proof.
  rewrite !newFleetGatewayWithScheduler_unfold.
  intros [= <- <-] [= <- <-]. simpl.
  set (c1 := fresh (dom (chans w0))).
  set (f1 := {| gw_done := c1 |}).
  set (w1 := set_chans (<[c1:=Open]> (chans w0)) w0).
  set (c2 := fresh (dom (chans (run_ops f1 ops w1).2))).
  assert (c1 ≠ c2) as Hne.
  { intros Heq.
    assert (is_Some (chans (run_ops f1 ops w1).2 !! c1)) as Hin.
    { destruct (run_only_closes_own_done_aux f1 ops w1 c1) as [->|(_ & _ & ->)];
        [|done].
      simpl. by rewrite lookup_insert_eq. }
    apply elem_of_dom in Hin. rewrite Heq in Hin.
    by apply is_fresh in Hin. }
  split; [done|].
  destruct (run_only_closes_own_done_aux f1 ops'
              (set_chans (<[c2:=Open]> (chans (run_ops f1 ops w1).2))
                 (run_ops f1 ops w1).2) c2) as [->|[Heq _]].
  - simpl. apply lookup_insert_eq.
  - done.
Qed.

End Gateway.




(** * A run on concrete collaborators

    Events, actions and errors are strings; the collaborators are small
    in-memory stand-ins, enough to run the gateway. *)

Module Scenario.

(** The state behind the collaborators. *)
Record Env : Type :=
  { queue : list string;
    replies : list (option (fleetapi.CheckinResponse string) * option string);
    received : list (list string);
    applied : list (list string);
    dispatch_error : option string;
    ticks_asked : nat;
    stopped : bool }.

(** Modelled from the spec: the Reporter behind [fleetReporter], whose code
    is not in [fleet_gateway.go].  [Events()] returns the pending events as a
    snapshot, and a closure that removes those events from the queue and no
    event added after them. *)
Definition drop_acked (n : nat) (e : Env) : Env :=
  {| queue := drop n (queue e); replies := replies e; received := received e;
     applied := applied e; dispatch_error := dispatch_error e;
     ticks_asked := ticks_asked e; stopped := stopped e |}.

Definition reporter : @fleetReporter string Env :=
  {| Events := λ e, (queue e, drop_acked (length (queue e)), e) |}.

(** Modelled from the spec: the Checkin Client.  A round-trip takes the next
    scripted reply of the control plane, which has then received the events
    of the request; with no reply left the control plane is unreachable. *)
Definition NewCheckinCmd (info : string) (client : unit) : string := info.

Definition Execute (cmd : string) (req : fleetapi.CheckinRequest string)
  (e : Env)
  : (option (fleetapi.CheckinResponse string) * option string) * Env :=
  match replies e with
  | [] => ((None, Some "unreachable"), e)
  | reply :: more =>
      (reply,
       {| queue := queue e; replies := more;
          received := received e ++ [fleetapi.Events req];
          applied := applied e; dispatch_error := dispatch_error e;
          ticks_asked := ticks_asked e; stopped := stopped e |})
  end.

(** Modelled from the spec: the Dispatcher.  It takes the batch and answers
    with its configured error, if any. *)
Definition disp : @dispatcher string string Env :=
  {| Dispatch := λ actions e,
       (dispatch_error e,
        {| queue := queue e; replies := replies e; received := received e;
           applied := applied e ++ [actions];
           dispatch_error := dispatch_error e;
           ticks_asked := ticks_asked e; stopped := stopped e |}) |}.

(** Modelled from the spec: the Scheduler, as far as its state goes. *)
Definition NewPeriodicJitter (d variance : time.Duration)
  : scheduler.Scheduler Env :=
  {| scheduler.WaitTick := λ e,
       {| queue := queue e; replies := replies e; received := received e;
          applied := applied e; dispatch_error := dispatch_error e;
          ticks_asked := S (ticks_asked e); stopped := stopped e |};
     scheduler.Stop := λ e,
       {| queue := queue e; replies := replies e; received := received e;
          applied := applied e; dispatch_error := dispatch_error e;
          ticks_asked := ticks_asked e; stopped := true |} |}.

Definition settings : fleetGatewaySettings :=
  {| Duration := 30000000000%Z; Jitter := 5000000000%Z |}.

Definition GW : Type :=
  @fleetGateway string string string Env unit string unit.

Definition W : Type := @World string string string Env string.

(** The reporter holds [E1, E2]; the control plane will answer the first
    round-trip with the action [A1]. *)
Definition env0 (derr : option string)
  (script : list (option (fleetapi.CheckinResponse string) * option string))
  : Env :=
  {| queue := ["E1"; "E2"]; replies := script; received := []; applied := [];
     dispatch_error := derr; ticks_asked := 0; stopped := false |}.

Definition answer_A1
  : option (fleetapi.CheckinResponse string) * option string :=
  (Some {| fleetapi.Actions := ["A1"] |}, None).

Definition blank (e : Env) : W :=
  {| env := e; chans := ∅; trace := [] |}.

(** The gateway as [newFleetGateway] builds it in a blank world, and that
    world with the gateway's [done] channel in it. *)
Definition gateway0 : GW :=
  {| gw_log := (); gw_dispatcher := disp; gw_client := ();
     gw_scheduler := NewPeriodicJitter (Duration settings) (Jitter settings);
     gw_agentInfo := "agent-1"; gw_reporter := reporter; gw_done := 0 |}.

Definition world0 (e : Env) : W :=
  {| env := e; chans := {[0 := Open]}; trace := [] |}.

Definition run (ops : list gatewayOp) (e : Env) : Outcome () * W :=
  run_ops "" NewCheckinCmd Execute gateway0 ops (world0 e).

Example construction e :
  newFleetGateway NewPeriodicJitter () (Some settings) "agent-1" () disp
    reporter (blank e)
  = (Ok (Some gateway0, None), world0 e).
Proof. reflexivity. Qed.

(** The scenario of the specification: the events leave the queue once the
    check-in has succeeded, and the action reaches the dispatcher. *)
Example checkin_succeeds :
  let w := (run [OpWorker [TickReady true]] (env0 None [answer_A1])).2 in
  queue (env w) = [] ∧
  received (env w) = [["E1"; "E2"]] ∧
  applied (env w) = [["A1"]] ∧
  acked (trace w) = [2] ∧
  dispatched (trace w) = [["A1"]].
Proof. vm_compute. done. Qed.

(** ... and they stay in the queue when the round-trip fails, to be sent
    again at the next tick. *)
Example checkin_fails_then_succeeds :
  let script := [(None, Some "timeout"); answer_A1] in
  let w1 := (run [OpWorker [TickReady true]] (env0 None script)).2 in
  let w2 :=
    (run [OpWorker [TickReady true; TickReady true]] (env0 None script)).2 in
  queue (env w1) = ["E1"; "E2"] ∧
  dispatched (trace w1) = [] ∧
  acked (trace w1) = [] ∧
  queue (env w2) = [] ∧
  snapshots (trace w2) = [["E1"; "E2"]; ["E1"; "E2"]] ∧
  dispatched (trace w2) = [["A1"]].
Proof. vm_compute. done. Qed.

(** A response that is nil together with a nil error makes the worker
    dereference nil. *)
Example nil_response_panics :
  (run [OpWorker [TickReady true]] (env0 None [(None, None)])).1
  = Panic "invalid memory address or nil pointer dereference".
Proof. reflexivity. Qed.

(** With [done] closed and a tick ready, Go's [select] may draw either
    case. *)
Example tick_drawn_after_Stop :
  let w :=
    (run [OpStop; OpWorker [TickReady true; TickReady false]]
       (env0 None [answer_A1])).2 in
  snapshots (trace w) = [["E1"; "E2"]] ∧ stopped (env w) = true.
Proof. vm_compute. done. Qed.

(** ** The theorems at work on the scenario *)

Definition response_A1 : fleetapi.CheckinResponse string :=
  {| fleetapi.Actions := ["A1"] |}.

Definition request_E1_E2 : fleetapi.CheckinRequest string :=
  {| fleetapi.Events := ["E1"; "E2"] |}.

(** A successful [execute]: the response comes back, snapshot 0 is
    acknowledged, the queue is empty. *)
Lemma execute_acks_once_after_success_witness :
  let w := world0 (env0 None [answer_A1]) in
  (execute NewCheckinCmd Execute gateway0 w).1 = Ok (Some response_A1, None) ∧
  acked (trace (execute NewCheckinCmd Execute gateway0 w).2) = [0] ∧
  queue (env (execute NewCheckinCmd Execute gateway0 w).2) = [].
Proof.
  intros w.
  destruct (execute_acks_once_after_success "" NewCheckinCmd Execute
              gateway0 w ["E1"; "E2"] (drop_acked 2) (env0 None [answer_A1])
              (Some response_A1)
              (Execute "agent-1" request_E1_E2 (env0 None [answer_A1])).2
              eq_refl eq_refl) as (-> & _ & _).
  repeat split; reflexivity.
Defined.

(** A failed [execute], alone and within a turn of the worker. *)
Lemma failed_checkin_acks_and_dispatches_nothing_witness :
  let e := env0 None [(None, Some "timeout")] in
  let w := at_checkin gateway0 (world0 e) in
  (execute NewCheckinCmd Execute gateway0 w).1 = Ok (None, Some "timeout") ∧
  queue (env (execute NewCheckinCmd Execute gateway0 w).2) = ["E1"; "E2"] ∧
  dispatched
    (trace (worker "" NewCheckinCmd Execute gateway0 [TickReady true]
              (world0 e)).2) = [].
Proof.
  intros e w.
  destruct (failed_checkin_acks_and_dispatches_nothing "" NewCheckinCmd
              Execute gateway0 w ["E1"; "E2"] (drop_acked 2) (env w) None
              "timeout" (Execute "agent-1" request_E1_E2 (env w)).2
              eq_refl eq_refl) as (Hexec & _ & Hworker).
  destruct (Hworker (TickReady true) [] (world0 e) eq_refl eq_refl)
    as (Hturn & _ & _).
  rewrite Hexec, Hturn. repeat split; reflexivity.
Defined.

(** A turn of the worker with a successful check-in. *)
Lemma successful_cycle_dispatches_response_once_witness :
  let w := world0 (env0 None [answer_A1]) in
  dispatched
    (trace (worker "" NewCheckinCmd Execute gateway0 [TickReady true] w).2)
  = [["A1"]].
Proof.
  intros w.
  set (e1 := scheduler.WaitTick (gw_scheduler gateway0) (env w)).
  set (e2 := (Execute "agent-1" request_E1_E2 e1).2).
  destruct (successful_cycle_dispatches_response_once "" NewCheckinCmd
              Execute gateway0 (TickReady true) [] w ["E1"; "E2"]
              (drop_acked 2) e1 response_A1 e2 None
              (Dispatch disp ["A1"] (drop_acked 2 e2)).2
              eq_refl eq_refl eq_refl eq_refl) as [-> _].
  reflexivity.
Defined.

(** A turn whose dispatch fails: the events stay acknowledged and the loop
    is waiting for its next tick. *)
Lemma dispatch_error_is_only_logged_witness :
  let w := world0 (env0 (Some "rejected") [answer_A1]) in
  (worker "" NewCheckinCmd Execute gateway0 [TickReady true] w).1 = Ok Waiting ∧
  queue (env (worker "" NewCheckinCmd Execute gateway0 [TickReady true] w).2)
  = [].
Proof.
  intros w.
  set (e1 := scheduler.WaitTick (gw_scheduler gateway0) (env w)).
  set (e2 := (Execute "agent-1" request_E1_E2 e1).2).
  destruct (dispatch_error_is_only_logged "" NewCheckinCmd Execute gateway0
              (TickReady true) [] w ["E1"; "E2"] (drop_acked 2) e1
              response_A1 e2 "rejected"
              (Dispatch disp ["A1"] (drop_acked 2 e2)).2
              eq_refl eq_refl eq_refl eq_refl) as (_ & -> & _).
  split; reflexivity.
Defined.

(** [Stop] after a start and two turns of the worker. *)
Lemma Stop_once_completes_witness :
  let ops := [OpStart; OpWorker [TickReady true; TickReady true]] in
  let w2 := (run ops (env0 None [answer_A1])).2 in
  stops ops = 0 ∧
  (Stop gateway0 w2).1 = Ok () ∧
  chans (Stop gateway0 w2).2 !! 0 = Some Closed ∧
  stopped (env (Stop gateway0 w2).2) = true.
Proof.
  intros ops w2. split; [reflexivity|].
  destruct (Stop_once_completes "" NewCheckinCmd Execute ()
              (Some settings) "agent-1" () disp
              (NewPeriodicJitter (Duration settings) (Jitter settings))
              reporter (blank (env0 None [answer_A1])) gateway0
              (world0 (env0 None [answer_A1])) ops w2
              eq_refl eq_refl eq_refl) as [_ ->].
  repeat split; reflexivity.
Defined.

(** C9, as stated, fails: with a nil [settings] pointer [newFleetGateway]
    panics on [settings.Duration] and returns nothing. *)
Lemma newFleetGateway_nil_settings_panics :
  newFleetGateway NewPeriodicJitter () None "agent-1" () disp reporter
    (blank (env0 None []))
  = (Panic "invalid memory address or nil pointer dereference",
     blank (env0 None [])).
Proof. reflexivity. Qed.

(** ** The further properties at work on the scenario *)

(** A destination that held something else is overwritten all the same. *)
Lemma actions_copy_overwrites_every_slot_witness :
  range_assign 0 ["A1"; "A2"] ["stale"; ""] (world0 (env0 None []))
  = (Ok ["A1"; "A2"], world0 (env0 None [])).
Proof.
  apply (actions_copy_overwrites_every_slot ["A1"; "A2"] ["stale"; ""]
           (world0 (env0 None []))).
  reflexivity.
Defined.

(** A nil response with a nil error: the queue has been emptied, the worker
    is gone, and the second tick is never served. *)
Lemma nil_response_ends_worker_after_ack_witness :
  let sel := [TickReady true; TickReady true] in
  let w := world0 (env0 None [(None, None); answer_A1]) in
  (worker "" NewCheckinCmd Execute gateway0 sel w).1
  = Panic "invalid memory address or nil pointer dereference" ∧
  queue (env (worker "" NewCheckinCmd Execute gateway0 sel w).2) = [] ∧
  dispatched
    (calls_since w (worker "" NewCheckinCmd Execute gateway0 sel w).2) = [].
Proof.
  intros sel w.
  set (e1 := scheduler.WaitTick (gw_scheduler gateway0) (env w)).
  destruct (nil_response_ends_worker_after_ack "" NewCheckinCmd Execute
              gateway0 (TickReady true) [TickReady true] w ["E1"; "E2"]
              (drop_acked 2) e1 (Execute "agent-1" request_E1_E2 e1).2
              eq_refl eq_refl eq_refl) as (Hpanic & Henv & _ & Hdisp).
  split; [exact Hpanic|]. split; [|exact Hdisp].
  fold sel in Henv. rewrite Henv. reflexivity.
Defined.


(** A second [Stop], with a start and a turn of the worker in between. *)
Lemma Stop_after_Stop_panics_witness :
  let ops := [OpStop; OpStart; OpWorker [TickReady true]] in
  let w2 := (run ops (env0 None [answer_A1])).2 in
  stops ops = 1 ∧
  Stop gateway0 w2 = (Panic "close of closed channel", w2).
Proof.
  intros ops w2.
  apply (Stop_after_Stop_panics "" NewCheckinCmd Execute ()
           (Some settings) "agent-1" () disp
           (NewPeriodicJitter (Duration settings) (Jitter settings))
           reporter (blank (env0 None [answer_A1])) gateway0
           (world0 (env0 None [answer_A1])) ops w2 eq_refl eq_refl).
  vm_compute. discriminate.
Defined.

(** The loop of a stopped gateway returns at a [select] without a tick. *)
Lemma worker_returns_once_stopped_witness :
  let w2 := (run [OpStop] (env0 None [answer_A1])).2 in
  (worker "" NewCheckinCmd Execute gateway0 [NoTick; TickReady true] w2).1
  = Ok Returned ∧
  snapshots
    (trace (worker "" NewCheckinCmd Execute gateway0 [NoTick; TickReady true]
              w2).2) = [].
Proof.
  intros w2.
  rewrite (worker_returns_once_stopped "" NewCheckinCmd Execute ()
             (Some settings) "agent-1" () disp
             (NewPeriodicJitter (Duration settings) (Jitter settings))
             reporter (blank (env0 None [answer_A1])) gateway0
             (world0 (env0 None [answer_A1])) [OpStop] w2 NoTick
             [TickReady true] eq_refl eq_refl).
  - split; reflexivity.
  - vm_compute. discriminate.
  - by left.
Defined.

(** A second gateway, built while the first is running, and the first one
    stopped afterwards. *)
Definition gateway1 : GW :=
  {| gw_log := (); gw_dispatcher := disp; gw_client := ();
     gw_scheduler := NewPeriodicJitter (Duration settings) (Jitter settings);
     gw_agentInfo := "agent-2"; gw_reporter := reporter; gw_done := 1 |}.

Lemma gateways_do_not_share_done_witness :
  let w1' := (run [OpStart] (env0 None [answer_A1])).2 in
  let w2 :=
    (newFleetGatewayWithScheduler () None "agent-2" () disp
       (NewPeriodicJitter (Duration settings) (Jitter settings))
       reporter w1').2 in
  gw_done gateway0 ≠ gw_done gateway1 ∧
  chans (run_ops "" NewCheckinCmd Execute gateway0 [OpStop] w2).2 !! 1
  = Some Open.
Proof.
  intros w1' w2.
  apply (gateways_do_not_share_done "" NewCheckinCmd Execute
           () (Some settings) "agent-1" () disp
           (NewPeriodicJitter (Duration settings) (Jitter settings)) reporter
           (blank (env0 None [answer_A1])) gateway0
           (world0 (env0 None [answer_A1])) [OpStart]
           () None "agent-2" () disp
           (NewPeriodicJitter (Duration settings) (Jitter settings)) reporter
           gateway1 w2 [OpStop] eq_refl eq_refl).
Defined.

(** A run with a failed round-trip, a rejected batch and an accepted one. *)
Example a_run_read_three_ways :
  let script := [(None, Some "timeout"); answer_A1; answer_A1] in
  let sel := [TickReady true; TickReady true; TickReady true] in
  let w := world0 (env0 (Some "rejected") script) in
  let calls :=
    calls_since w (worker "" NewCheckinCmd Execute gateway0 sel w).2 in
  dispatched calls = [["A1"]; ["A1"]] ∧
  logged_errors calls = ["timeout"; "rejected"; "rejected"] ∧
  snapshots calls = [["E1"; "E2"]; ["E1"; "E2"]; []] ∧
  roundtrips calls
  = [("agent-1", request_E1_E2); ("agent-1", request_E1_E2);
     ("agent-1", {| fleetapi.Events := [] |})].
Proof. vm_compute. done. Qed.

End Scenario.

